(** * CyberpunkMP: RPC identity, translation table, handler registry,
      packet envelope and master-server announcement timer.

    Shallow embedding of
      - code/client/App/Network/Rpc/RpcService.h   (RpcId, std::hash<RpcId>,
        CachedRpcHandler, the two registries of RpcService),
      - code/protocol/ProtocolPCH.h                (PacketEvent<T>),
      - code/server/native/Systems/ServerListSystem.cpp (the constructor, the
        PlayerComponent observer, Tick, Announce and PostAnnouncement).

    Unsigned 64-bit and 32-bit integers are [Z] with the wrap-around written
    out; [Map<K,V>] is a [gmap]; [Vector<T>] is a [list]; [std::optional<T>]
    is [option T]; a raw pointer is the [Z] of its address.

    RpcService.h only declares the member functions of RpcService; their
    bodies (RpcService.cpp) and the generated netpack headers are not part of
    the sources at hand.  Every definition standing for such a body is marked
    "Modelled from the spec" and follows the wording of the specification. *)

From Stdlib Require Import ZArith Lia.
From stdpp Require Import base option list gmap fin_maps countable.
From stdpp Require Import strings pretty.

Local Open Scope Z_scope.

(** * Part I: the embedding *)

(** ** Fixed-width unsigned arithmetic *)

Module U64.

Definition width : Z := 64.
Definition modulus : Z := 2 ^ width.

(** Membership in [uint64_t]. *)
Definition in_range (x : Z) : Prop := 0 <= x < modulus.

Definition wrap (x : Z) : Z := x mod modulus.

(** [a + b] at type [uint64_t]. *)
Definition add (a b : Z) : Z := wrap (a + b).

(** [a << n] at type [uint64_t]: bits shifted past position 63 are lost. *)
Definition shl (a n : Z) : Z := wrap (Z.shiftl a n).

(** [a ^ b]; it needs no wrap, both operands being in range. *)
Definition xor (a b : Z) : Z := Z.lxor a b.

End U64.

(** ** Identity: [struct RpcId] with its equality and its hash *)

Module Identity.

Record RpcId : Type := mkRpcId { Klass : Z; Function : Z }.

(** Both fields are [uint64_t]. *)
Definition wf (s : RpcId) : Prop :=
  U64.in_range (Klass s) /\ U64.in_range (Function s).

(** [RpcId::operator==]. *)
Definition eqb (a acRhs : RpcId) : bool :=
  (Klass a =? Klass acRhs) && (Function a =? Function acRhs).

(** [std::hash<RpcId>::operator()], with [std::size_t] 64 bits wide. *)
Definition hash (s : RpcId) : Z :=
  U64.xor (Klass s) (U64.shl (Function s) 1).

(** The identity of hash [h] among those whose [Function] is [f]. *)
Definition preimage (h f : Z) : RpcId :=
  {| Klass := U64.xor h (U64.shl f 1); Function := f |}.

#[global] Instance RpcId_eq_dec : EqDecision RpcId.
Proof. solve_decision. Defined.

#[global] Instance RpcId_countable : Countable RpcId.
Proof.
  refine (inj_countable' (fun s => (Klass s, Function s))
                         (fun p => mkRpcId p.1 p.2) _).
  by intros [].
Defined.

End Identity.

Export Identity (RpcId, mkRpcId, Klass, Function).

(** ** Packet envelope: [template<class T> struct PacketEvent : T] *)

Module Envelope.

(** The base-class subobject [T] and the one member the template adds. *)
Record PacketEvent (T : Type) : Type :=
  mkPacketEvent { base : T; ConnectionId : Z }.

Arguments mkPacketEvent {T} _ _.
Arguments base {T} _.
Arguments ConnectionId {T} _.

(** An envelope built from a payload alone: the default member initializer
    [ConnectionId{0}] applies. *)
Definition wrap {T : Type} (payload : T) : PacketEvent T :=
  {| base := payload; ConnectionId := 0 |}.

(** Assignment to the [ConnectionId] member. *)
Definition set_ConnectionId {T : Type} (e : PacketEvent T) (c : Z)
  : PacketEvent T :=
  {| base := base e; ConnectionId := c |}.

End Envelope.

Export Envelope (PacketEvent, mkPacketEvent, base, ConnectionId).

(** ** Outbound translation table: [Map<RpcId, uint32_t> m_serverRpcs] *)

Module TranslationTable.

(** Modelled from the spec: the body of [lookup] (RpcService::GetRpcId is
    only declared).  "Pure read; returns nothing if the identity has no
    current server-assigned code." *)
Definition lookup (t : gmap RpcId Z) (id : RpcId) : option Z := t !! id.

(** Modelled from the spec: the loop that "installs the new" mapping (its code
    is missing with the body of RpcService::HandleRpcDefinitions); the entries
    are stored one after the other, [m[id] = wire]. *)
Definition store_all (m : gmap RpcId Z) (entries : list (RpcId * Z))
  : gmap RpcId Z :=
  foldl (fun m e => <[e.1 := e.2]> m) m entries.

(** Modelled from the spec: the body of [replace_all] (the table rebuild of
    RpcService::HandleRpcDefinitions is only declared).  "Atomically discards
    the previous mapping and installs the new one": the table is cleared and
    the entries are stored into it. *)
Definition replace_all (previous : gmap RpcId Z) (entries : list (RpcId * Z))
  : gmap RpcId Z :=
  store_all ∅ entries.

(** Modelled from the spec: "translating the wire representation to an
    Identity first if the direction uses WireId"; the identity that the
    current mapping pairs with the wire id, if there is one. *)
Definition identity_of (t : gmap RpcId Z) (wire : Z) : option RpcId :=
  fst <$> head (filter (fun e => e.2 = wire) (map_to_list t)).

End TranslationTable.

(** ** Inbound handler registry: [Vector<CachedRpcHandler> m_clientRpcs] *)

Module Registry.

(** [struct CachedRpcHandler]; [Handler] is the address held by the
    [RpcHandler*]. *)
Record CachedRpcHandler : Type :=
  mkCachedRpcHandler { Id : RpcId; Handler : Z }.

(** Modelled from the spec: the body of [resolve] is missing from the
    sources.  "read-only lookup used per inbound call ... a linear scan over
    a compact sequence", comparing with [RpcId::operator==]. *)
Fixpoint resolve (regs : list CachedRpcHandler) (id : RpcId) : option Z :=
  match regs with
  | [] => None
  | e :: rest =>
      if Identity.eqb (Id e) id then Some (Handler e) else resolve rest id
  end.

(** Modelled from the spec: the body of [register] is missing from the
    sources.  "duplicate identities are a configuration error and must fail
    fast (fatal, not recoverable)"; [None] is that failure. *)
Definition register (regs : list CachedRpcHandler) (id : RpcId) (h : Z)
  : option (list CachedRpcHandler) :=
  match resolve regs id with
  | Some _ => None
  | None => Some (regs ++ [{| Id := id; Handler := h |}])
  end.

(** Modelled from the spec: the one-time population of the registry during
    bring-up is missing from the sources.  "populated once during subsystem
    initialization from static registrations"; a failed registration halts
    it. *)
Fixpoint populate (regs : list CachedRpcHandler)
  (static : list CachedRpcHandler) : option (list CachedRpcHandler) :=
  match static with
  | [] => Some regs
  | e :: rest =>
      match register regs (Id e) (Handler e) with
      | None => None
      | Some regs' => populate regs' rest
      end
  end.

(** Modelled from the spec: the bring-up itself, missing from the sources; it
    populates the empty registry. *)
Definition bring_up (static : list CachedRpcHandler)
  : option (list CachedRpcHandler) :=
  populate [] static.

End Registry.

Export Registry (CachedRpcHandler, mkCachedRpcHandler, Id, Handler).

(** ** Dispatcher: [struct RpcService] and its message handlers *)

Module Dispatcher.

(** The two data members of [struct RpcService]. *)
Record RpcService : Type :=
  mkRpcService {
    m_serverRpcs : gmap RpcId Z;
    m_clientRpcs : list CachedRpcHandler
  }.

(** Modelled from the spec: [server::RpcDefinitions] comes from a generated
    header that is missing.  "enumerates the full current set of
    (Identity -> WireId) pairs". *)
Record RpcDefinitions : Type := mkRpcDefinitions { entries : list (RpcId * Z) }.

(** Modelled from the spec: [server::RpcCall] comes from a generated header
    that is missing.  "{WireId or Identity (direction-dependent), serialized
    arguments, target connection}"; the target connection is the envelope's
    [ConnectionId]. *)
Inductive CallTarget : Type :=
| ByWireId (wire : Z)
| ByIdentity (id : RpcId).

(** Modelled from the spec: the call message of the same missing header,
    with its "serialized arguments" as bytes. *)
Record RpcCall : Type :=
  mkRpcCall { target : CallTarget; arguments : list Byte.byte }.

(** Modelled from the spec: the per-connection state machine
    "Uninitialized -> AwaitingDefinitions -> Ready". *)
Inductive Phase : Type := Uninitialized | AwaitingDefinitions | Ready.

(** Modelled from the spec: the service together with the per-connection
    state the spec gives it; [connection] is the active connection, whose
    peer has the server role. *)
Record Session : Type :=
  mkSession {
    service : RpcService;
    phase : Phase;
    connection : option Z
  }.

(** Modelled from the spec: what the dispatcher does to its surroundings
    (decoding with a handler's thunk, invoking it, handing off a call
    message, logging); the code doing it is missing from the sources. *)
Inductive Action : Type :=
| Decoded (handler : Z) (payload : list Byte.byte)
| Invoked (handler : Z) (payload : list Byte.byte)
| Sent (message : RpcCall)
| LoggedDrop
| LoggedHookFailure.

(** Modelled from the spec: [RpcService::GetRpcId] is only declared; it is
    the "emitted query" [lookup] at the identity made of its arguments. *)
Definition GetRpcId (s : RpcService) (aKlass aFunction : Z) : option Z :=
  TranslationTable.lookup (m_serverRpcs s)
    {| Klass := aKlass; Function := aFunction |}.

(** Modelled from the spec: [RpcService::HandleRpcDefinitions] is only
    declared.  "validate the sender is the expected authoritative peer ...;
    if valid, call replace_all"; the first successful one reaches [Ready] and
    a later one stays there. *)
Definition HandleRpcDefinitions (s : Session)
  (aMessage : PacketEvent RpcDefinitions) : Session :=
  if decide (connection s = Some (ConnectionId aMessage)) then
    {| service :=
         {| m_serverRpcs :=
              TranslationTable.replace_all (m_serverRpcs (service s))
                (entries (base aMessage));
            m_clientRpcs := m_clientRpcs (service s) |};
       phase := Ready;
       connection := connection s |}
  else s.

(** Modelled from the spec: resolution of an inbound call, "translating the
    wire representation to an Identity first if the direction uses WireId". *)
Definition route (s : RpcService) (t : CallTarget) : option Z :=
  match t with
  | ByIdentity id => Registry.resolve (m_clientRpcs s) id
  | ByWireId wire =>
      match TranslationTable.identity_of (m_serverRpcs s) wire with
      | Some id => Registry.resolve (m_clientRpcs s) id
      | None => None
      end
  end.

(** Modelled from the spec: [RpcService::HandleRpc] is only declared.  "If
    resolution fails, the packet MUST be dropped and the event logged ...  If
    resolution succeeds, decode arguments using the handler's bound thunk and
    invoke synchronously". *)
Definition HandleRpc (s : Session) (aMessage : PacketEvent RpcCall)
  : Session * list Action :=
  match route (service s) (target (base aMessage)) with
  | None => (s, [LoggedDrop])
  | Some h =>
      (s, [Decoded h (arguments (base aMessage));
           Invoked h (arguments (base aMessage))])
  end.

(** Modelled from the spec: issuing a call.  "the caller resolves its local
    Identity via lookup; if empty, the call is rejected locally (never sent)
    ...  If present, the dispatcher constructs and hands off a Call Message
    using the resolved WireId." *)
Definition IssueCall (s : RpcService) (id : RpcId) (args : list Byte.byte)
  : option RpcCall :=
  match GetRpcId s (Klass id) (Function id) with
  | None => None
  | Some wire => Some {| target := ByWireId wire; arguments := args |}
  end.

(** Modelled from the spec: the session hook ([RpcService::PrepareRpc] is
    only declared).  "invoked once during host-application preparation ...
    install the Dispatcher's message handlers and perform the one-time
    Handler Registry population ... on failure it logs and allows the host's
    normal startup to continue". *)
Definition PrepareRpc (s : Session) (static : list CachedRpcHandler)
  : Session * list Action :=
  match phase s with
  | Uninitialized =>
      match Registry.bring_up static with
      | Some regs =>
          ({| service :=
                {| m_serverRpcs := m_serverRpcs (service s);
                   m_clientRpcs := regs |};
              phase := AwaitingDefinitions;
              connection := connection s |}, [])
      | None => (s, [LoggedHookFailure])
      end
  | _ => (s, [])
  end.

(** Modelled from the spec: what can happen to a session: the hook, the two
    inbound message kinds and a local caller issuing a call. *)
Inductive Event : Type :=
| Prepare (static : list CachedRpcHandler)
| Definitions (msg : PacketEvent RpcDefinitions)
| InboundCall (msg : PacketEvent RpcCall)
| OutboundCall (id : RpcId) (args : list Byte.byte).

(** Modelled from the spec: one event; messages reach the handlers only once
    the hook has "install[ed] the Dispatcher's message handlers". *)
Definition step (s : Session) (ev : Event) : Session * list Action :=
  match ev with
  | Prepare static => PrepareRpc s static
  | Definitions msg =>
      match phase s with
      | Uninitialized => (s, [])
      | _ => (HandleRpcDefinitions s msg, [])
      end
  | InboundCall msg =>
      match phase s with
      | Uninitialized => (s, [])
      | _ => HandleRpc s msg
      end
  | OutboundCall id args =>
      (s, match IssueCall (service s) id args with
          | Some m => [Sent m]
          | None => []
          end)
  end.

(** Modelled from the spec: events handled one after the other on the single
    dispatch thread, their actions in order. *)
Fixpoint run (s : Session) (evs : list Event) : Session * list Action :=
  match evs with
  | [] => (s, [])
  | ev :: rest =>
      let '(s1, out1) := step s ev in
      let '(s2, out2) := run s1 rest in
      (s2, out1 ++ out2)
  end.

(** Modelled from the spec: the session before the hook has run, both
    registries empty. *)
Definition initial (conn : option Z) : Session :=
  {| service := {| m_serverRpcs := ∅; m_clientRpcs := [] |};
     phase := Uninitialized;
     connection := conn |}.

(** Before [Ready] the translation table is empty. *)
Definition table_empty_before_Ready (s : Session) : Prop :=
  phase s <> Ready -> m_serverRpcs (service s) = ∅.

End Dispatcher.

(** ** Master-server announcements: [ServerListSystem] *)

Module ServerList.

(** [std::chrono::minutes(1)] in ticks of [steady_clock] (nanoseconds). *)
Definition minute : Z := 60 * 1000000000.

(** An entry of the history kept for the proofs: a call of [Announce()]
    between the two clock readings of a [Tick], or a run of the observer. *)
Inductive Entry : Type :=
| Announced (before after : Z)
| Cleared.

(** [m_nextAnnounce] is a [steady_clock::time_point], counted in ticks since
    the clock's epoch (the 64-bit count is far from its bounds);
    [history] has the most recent entry first. *)
Record ServerListSystem : Type :=
  mkServerListSystem { m_nextAnnounce : Z; history : list Entry }.

(** The constructor: [m_nextAnnounce{}] is the epoch. *)
Definition create : ServerListSystem :=
  {| m_nextAnnounce := 0; history := [] |}.

(** The observer body [m_nextAnnounce = {}], run on [flecs::OnSet] and on
    [flecs::OnRemove] of a [PlayerComponent]. *)
Definition OnPlayerComponent (s : ServerListSystem) : ServerListSystem :=
  {| m_nextAnnounce := 0; history := Cleared :: history s |}.

(** [ServerListSystem::Tick]; [now1] and [now2] are the values of the two
    calls of [steady_clock::now()]. *)
Definition Tick (s : ServerListSystem) (now1 now2 : Z) : ServerListSystem :=
  if m_nextAnnounce s <? now1 then
    {| m_nextAnnounce := now2 + minute;
       history := Announced now1 now2 :: history s |}
  else s.

Inductive Event : Type :=
| EvTick (now1 now2 : Z)
| EvSet
| EvRemove.

Definition step (s : ServerListSystem) (ev : Event) : ServerListSystem :=
  match ev with
  | EvTick now1 now2 => Tick s now1 now2
  | EvSet | EvRemove => OnPlayerComponent s
  end.

Definition run (s : ServerListSystem) (evs : list Event) : ServerListSystem :=
  foldl step s evs.

(** Two announcements with no run of the observer between them are more than
    a minute apart: the later one is decided on a reading that is past the
    second reading of the earlier one by more than a minute. *)
Fixpoint spaced (h : list Entry) : Prop :=
  match h with
  | Announced now1 _ :: rest =>
      match rest with
      | Announced _ prev2 :: _ => prev2 + minute < now1
      | _ => True
      end /\ spaced rest
  | Cleared :: rest => spaced rest
  | [] => True
  end.

(** What [Tick] leaves behind: the schedule is a minute past the second
    reading of the latest announcement, unless the observer ran since. *)
Definition scheduled (s : ServerListSystem) : Prop :=
  spaced (history s)
  /\ match history s with
     | Announced _ after :: _ => m_nextAnnounce s = after + minute
     | _ => True
     end.

End ServerList.

(** ** Runs of [ServerListSystem] against a steady clock *)

Module ServerListRun.

Import ServerList.

(** [steady_clock] never goes back: the readings of a run are in order,
    none earlier than [t]. *)
Fixpoint monotone (t : Z) (evs : list Event) : Prop :=
  match evs with
  | [] => True
  | EvTick now1 now2 :: rest => t <= now1 /\ now1 <= now2 /\ monotone now2 rest
  | _ :: rest => monotone t rest
  end.

(** The last clock reading of a run that starts at [t]. *)
Fixpoint last_reading (t : Z) (evs : list Event) : Z :=
  match evs with
  | [] => t
  | EvTick _ now2 :: rest => last_reading now2 rest
  | _ :: rest => last_reading t rest
  end.

(** Calls of [Announce()] recorded in a history. *)
Fixpoint announcements (h : list Entry) : Z :=
  match h with
  | [] => 0
  | Announced _ _ :: rest => 1 + announcements rest
  | Cleared :: rest => announcements rest
  end.

(** Runs of the observer recorded in a history. *)
Fixpoint resets (h : list Entry) : Z :=
  match h with
  | [] => 0
  | Announced _ _ :: rest => resets rest
  | Cleared :: rest => 1 + resets rest
  end.

(** Calls of [Tick] in a run. *)
Fixpoint ticks (evs : list Event) : Z :=
  match evs with
  | [] => 0
  | EvTick _ _ :: rest => 1 + ticks rest
  | _ :: rest => ticks rest
  end.

(** [PlayerComponent] events in a run. *)
Fixpoint player_events (evs : list Event) : Z :=
  match evs with
  | [] => 0
  | EvTick _ _ :: rest => player_events rest
  | _ :: rest => 1 + player_events rest
  end.

(** What a run keeps at clock value [t], started at [lo]: the schedule is a
    minute past the latest announcement, which is not in the future, and
    every announcement is paid for by a minute of elapsed time, by a run of
    the observer, or is the first one. *)
Definition budget (lo t : Z) (s : ServerListSystem) : Prop :=
  match history s with
  | Announced _ after :: _ =>
      m_nextAnnounce s = after + minute /\ after <= t
      /\ announcements (history s) * minute
         <= (resets (history s) + 1) * minute + (after - lo)
  | _ =>
      m_nextAnnounce s = 0
      /\ announcements (history s) * minute
         <= resets (history s) * minute + (t - lo)
  end.

End ServerListRun.

(** ** Posting an announcement: [ServerListSystem::PostAnnouncement] *)

Module MasterServer.

Definition kMasterServerEndpoint : string := "http://127.0.0.1:8000".
Definition kMasterServerHost : string := "127.0.0.1".
Definition kMasterServerPort : Z := 8000.

(** [std::to_string] of an integer: its decimal digits, with a sign when
    negative. *)
Definition to_string (x : Z) : string := pretty x.

(** [b ? "true" : "false"]. *)
Definition bool_string (b : bool) : string :=
  if b then "true" else "false".

(** Conversion to [uint16_t]. *)
Definition u16 (x : Z) : Z := x mod 2 ^ 16.

(** The initializer list of [const httplib::Params params], in the order it
    is written. *)
Definition announce_params (acName acDesc acIconUrl : string)
  (aPort aTick aPlayerCount aPlayerMaxCount : Z) (acTagList : string)
  (aPublic aPassword : bool) (aFlags : Z) : list (string * string) :=
  [ ("name", acName);
    ("desc", acDesc);
    ("icon_url", acIconUrl);
    ("version", "v0.1");
    ("port", to_string aPort);
    ("tick", to_string aTick);
    ("player_count", to_string aPlayerCount);
    ("max_player_count", to_string aPlayerMaxCount);
    ("tags", acTagList);
    ("public", bool_string aPublic);
    ("pass", bool_string aPassword);
    ("flags", to_string aFlags) ].

(** An [httplib::Result]: a response with its status and body, or no response
    and an error code. *)
Inductive Result : Type :=
| Response (status : Z) (body : string)
| NoResponse (error_code : Z).

Inductive Level : Type := info | warn | error.

(** The log lines of [PostAnnouncement], each with the arguments of its
    format string. *)
Inductive Message : Type :=
| Attempting (host : string) (port : Z)
| HealthCheckSuccessful
| HealthCheckFailed
| ServerBanned (body : string)
| SuccessfullyAnnounced (players : Z)
| ReturnedError (status : Z) (body : string)
| CouldNotConnect (error_code : Z)
| MakeSureRunning (endpoint : string).

(** What [PostAnnouncement] does, in order: log lines, the two requests of
    the client and [GServer->Kill()]. *)
Inductive Effect : Type :=
| Log (level : Level) (message : Message)
| Get (path : string)
| Post (path : string) (params : list (string * string))
| Kill.

(** The branch on the result of [client.Get("/health")]. *)
Definition health_log (health_response : Result) : Effect :=
  match health_response with
  | Response status _ =>
      if status =? 200 then Log info HealthCheckSuccessful
      else Log warn HealthCheckFailed
  | NoResponse _ => Log warn HealthCheckFailed
  end.

(** The branches on the result of [client.Post("/announce", params)]. *)
Definition announce_outcome (response : Result) (aPlayerCount : Z)
  : list Effect :=
  match response with
  | Response status body =>
      if status =? 403 then [Log error (ServerBanned body); Kill]
      else if status =? 200 then [Log info (SuccessfullyAnnounced aPlayerCount)]
      else [Log error (ReturnedError status body)]
  | NoResponse error_code =>
      [Log error (CouldNotConnect error_code);
       Log error (MakeSureRunning kMasterServerEndpoint)]
  end.

(** [ServerListSystem::PostAnnouncement]; [health_response] and [response]
    are what the master server answers to the two requests.  The timeouts set
    on the client bound how long the requests take and are left out. *)
Definition PostAnnouncement (acName acDesc acIconUrl : string)
  (aPort aTick aPlayerCount aPlayerMaxCount : Z) (acTagList : string)
  (aPublic aPassword : bool) (aFlags : Z)
  (health_response response : Result) : list Effect :=
  [Log info (Attempting kMasterServerHost kMasterServerPort);
   Get "/health";
   health_log health_response;
   Post "/announce"
     (announce_params acName acDesc acIconUrl aPort aTick aPlayerCount
        aPlayerMaxCount acTagList aPublic aPassword aFlags)]
  ++ announce_outcome response aPlayerCount.

(** The members of [IConfig] that [Announce] reads. *)
Record Config : Type :=
  mkConfig {
    Name : string;
    Description : string;
    IconUrl : string;
    Tags : string
  }.

(** The body of the thread started by [ServerListSystem::Announce]:
    [port], [tickRate] and [count] are the values of [GServer->GetPort()],
    [GServer->GetTickRate()] and [PlayerManager::Count()], converted to the
    [uint16_t] parameters ([count] by the [static_cast]). *)
Definition Announce (config : Config) (port tickRate count : Z)
  (health_response response : Result) : list Effect :=
  PostAnnouncement (Name config) (Description config) (IconUrl config)
    (u16 port) (u16 tickRate) (u16 count) 10000 (Tags config)
    true false 0 health_response response.

(** The requests among the effects. *)
Definition is_request (e : Effect) : bool :=
  match e with
  | Get _ | Post _ _ => true
  | _ => false
  end.

(** The log lines of level [error] among the effects. *)
Definition is_error_log (e : Effect) : bool :=
  match e with
  | Log error _ => true
  | _ => false
  end.

End MasterServer.

(** * Part II: properties *)

(** ** Unsigned arithmetic *)

Section U64_facts.

Lemma modulus_pos : 0 < U64.modulus.
Proof. reflexivity. Qed.

Lemma wrap_in_range x : U64.in_range (U64.wrap x).
Proof. apply Z.mod_pos_bound, modulus_pos. Qed.

Lemma shl_in_range a n : U64.in_range (U64.shl a n).
Proof. apply wrap_in_range. Qed.

Lemma shl_1 a : U64.shl a 1 = (2 * a) mod 2 ^ 64.
Proof.
  unfold U64.shl, U64.wrap. rewrite Z.shiftl_mul_pow2 by lia.
  change U64.modulus with (2 ^ 64). f_equal. lia.
Qed.

Lemma lxor_lt_pow2 a b n :
  0 < n -> 0 <= a < 2 ^ n -> 0 <= b < 2 ^ n -> 0 <= Z.lxor a b < 2 ^ n.
Proof.
  intros Hn [Ha0 Ha] [Hb0 Hb].
  assert (Hx : 0 <= Z.lxor a b) by (apply Z.lxor_nonneg; tauto).
  split; [exact Hx|].
  destruct (Z.eq_dec (Z.lxor a b) 0) as [->|Hne].
  { apply Z.pow_pos_nonneg; lia. }
  apply Z.log2_lt_pow2; [lia|].
  eapply Z.le_lt_trans; [apply Z.log2_lxor; assumption|].
  apply Z.max_lub_lt.
  - destruct (Z.eq_dec a 0) as [->|]; [exact Hn|]. apply Z.log2_lt_pow2; lia.
  - destruct (Z.eq_dec b 0) as [->|]; [exact Hn|]. apply Z.log2_lt_pow2; lia.
Qed.

Lemma xor_in_range a b :
  U64.in_range a -> U64.in_range b -> U64.in_range (U64.xor a b).
Proof. apply lxor_lt_pow2. reflexivity. Qed.

Lemma xor_cancel_r a b : U64.xor (U64.xor a b) b = a.
Proof.
  unfold U64.xor. by rewrite Z.lxor_assoc, Z.lxor_nilpotent, Z.lxor_0_r.
Qed.

Lemma xor_inj_r a b c : U64.xor a c = U64.xor b c -> a = b.
Proof.
  intros H. rewrite <- (xor_cancel_r a c), H. apply xor_cancel_r.
Qed.

Lemma xor_inj_l a b c : U64.xor c a = U64.xor c b -> a = b.
Proof.
  unfold U64.xor. rewrite (Z.lxor_comm c a), (Z.lxor_comm c b).
  apply xor_inj_r.
Qed.

(** Adding [2^63] flips the top bit, which the shift by one discards. *)
Lemma shl_1_add_top a : U64.shl (U64.add a (2 ^ 63)) 1 = U64.shl a 1.
Proof.
  rewrite !shl_1. unfold U64.add, U64.wrap. change U64.modulus with (2 ^ 64).
  rewrite Z.mul_mod_idemp_r by lia.
  replace (2 * (a + 2 ^ 63)) with (2 * a + 1 * 2 ^ 64) by lia.
  apply Z.mod_add. lia.
Qed.

Lemma add_top_ne a : U64.in_range a -> U64.add a (2 ^ 63) <> a.
Proof.
  unfold U64.in_range, U64.add, U64.wrap. change U64.modulus with (2 ^ 64).
  intros [H0 H1].
  destruct (Z_lt_ge_dec a (2 ^ 63)) as [Hlt|Hge].
  - rewrite Z.mod_small; lia.
  - replace (a + 2 ^ 63) with ((a - 2 ^ 63) + 1 * 2 ^ 64) by lia.
    rewrite Z.mod_add by lia. rewrite Z.mod_small; lia.
Qed.

(** The shift by one keeps the low 63 bits apart. *)
Lemma shl_1_inj_low a b :
  U64.shl a 1 = U64.shl b 1 -> a mod 2 ^ 63 = b mod 2 ^ 63.
Proof.
  rewrite !shl_1. change (2 ^ 64) with (2 * 2 ^ 63).
  rewrite !Z.mul_mod_distr_l by lia. lia.
Qed.

End U64_facts.

(** ** Identity *)

Section Identity_facts.

Lemma eqb_eq (a b : RpcId) : Identity.eqb a b = true <-> a = b.
Proof.
  destruct a as [k1 f1], b as [k2 f2]. unfold Identity.eqb. simpl.
  rewrite andb_true_iff, !Z.eqb_eq. split.
  - by intros [-> ->].
  - by intros [= -> ->].
Qed.

Lemma eqb_refl (a : RpcId) : Identity.eqb a a = true.
Proof. by apply eqb_eq. Qed.

Lemma eqb_neq (a b : RpcId) : Identity.eqb a b = false <-> a <> b.
Proof.
  rewrite <- eqb_eq. destruct (Identity.eqb a b); split; congruence.
Qed.

Lemma hash_in_range s : Identity.wf s -> U64.in_range (Identity.hash s).
Proof.
  intros [Hk _]. apply xor_in_range; [exact Hk|apply shl_in_range].
Qed.

Lemma hash_preimage h f : Identity.hash (Identity.preimage h f) = h.
Proof. unfold Identity.hash, Identity.preimage. simpl. apply xor_cancel_r. Qed.

Lemma preimage_wf h f :
  U64.in_range h -> U64.in_range f -> Identity.wf (Identity.preimage h f).
Proof.
  intros Hh Hf. split; simpl; [|exact Hf].
  apply xor_in_range; [exact Hh|apply shl_in_range].
Qed.

(** C3.  [a == b] holds exactly when both fields agree, that is exactly when
    the two identities are the same value; identities differing in either
    field compare unequal. *)
Theorem RpcId_eq_iff (a b : RpcId) :
  (Identity.eqb a b = true <-> Klass a = Klass b /\ Function a = Function b)
  /\ (Identity.eqb a b = true <-> a = b)
  /\ (Klass a <> Klass b \/ Function a <> Function b ->
      Identity.eqb a b = false).
Proof.
  split; [|split].
  - unfold Identity.eqb. by rewrite andb_true_iff, !Z.eqb_eq.
  - apply eqb_eq.
  - intros H. apply eqb_neq. intros ->. tauto.
Qed.

Lemma RpcId_eq_iff_witness :
  Identity.eqb (mkRpcId 1 2) (mkRpcId 1 3) = false.
Proof.
  apply (RpcId_eq_iff (mkRpcId 1 2) (mkRpcId 1 3)).
  right. simpl. lia.
Defined.

(** C4.  The hash is [Klass xor (Function << 1)] at 64 bits: a function of
    the two fields and of nothing else, with a 64-bit result.  It spreads
    the identities evenly: identities that differ only in [Klass], or whose
    [Function] fields differ in their low 63 bits while [Klass] agrees, never
    collide, and for every hash value [h] and every [Function] value [f]
    exactly one [Klass] value gives an identity of hash [h].  So one identity
    in [2^64] has a given hash, and a pair of distinct identities collides
    with probability below [2^-64]. *)
Theorem hash_deterministic_and_spread (a b : RpcId) (h f : Z) :
  Identity.hash a = Z.lxor (Klass a) ((2 * Function a) mod 2 ^ 64)
  /\ (Klass a = Klass b -> Function a = Function b ->
      Identity.hash a = Identity.hash b)
  /\ (Identity.wf a -> 0 <= Identity.hash a < 2 ^ 64)
  /\ (Function a = Function b -> Klass a <> Klass b ->
      Identity.hash a <> Identity.hash b)
  /\ (Klass a = Klass b -> Function a mod 2 ^ 63 <> Function b mod 2 ^ 63 ->
      Identity.hash a <> Identity.hash b)
  /\ (U64.in_range h -> U64.in_range f ->
      Identity.wf (Identity.preimage h f)
      /\ Function (Identity.preimage h f) = f
      /\ Identity.hash (Identity.preimage h f) = h
      /\ forall k, Identity.hash (mkRpcId k f) = h ->
                   k = Klass (Identity.preimage h f)).
Proof.
  split_and!.
  - unfold Identity.hash, U64.xor. by rewrite shl_1.
  - intros Hk Hf. unfold Identity.hash. by rewrite Hk, Hf.
  - apply hash_in_range.
  - intros Hf Hk Hh. apply Hk. unfold Identity.hash in Hh.
    rewrite Hf in Hh. by apply xor_inj_r in Hh.
  - intros Hk Hf Hh. apply Hf. unfold Identity.hash in Hh.
    rewrite Hk in Hh. apply xor_inj_l in Hh. by apply shl_1_inj_low.
  - intros Hh Hf. split_and!.
    + by apply preimage_wf.
    + reflexivity.
    + apply hash_preimage.
    + intros k Hk. rewrite <- (hash_preimage h f) in Hk.
      unfold Identity.hash, Identity.preimage in Hk. simpl in Hk.
      by apply xor_inj_r in Hk.
Qed.

Lemma hash_deterministic_and_spread_witness :
  Identity.hash (mkRpcId 5 3) <> Identity.hash (mkRpcId 4 3)
  /\ Identity.hash (mkRpcId 5 3) <> Identity.hash (mkRpcId 5 2)
  /\ 0 <= Identity.hash (mkRpcId 5 3) < 2 ^ 64
  /\ Identity.hash (Identity.preimage 3 3) = 3.
Proof.
  pose proof (hash_deterministic_and_spread (mkRpcId 5 3) (mkRpcId 4 3) 3 3)
    as (_ & _ & Hr & Hk & _ & Hp).
  pose proof (hash_deterministic_and_spread (mkRpcId 5 3) (mkRpcId 5 2) 3 3)
    as (_ & _ & _ & _ & Hf & _).
  split; [|split; [|split]].
  - apply Hk; simpl; [reflexivity|lia].
  - apply Hf; simpl; [reflexivity|vm_compute; discriminate].
  - apply Hr. unfold Identity.wf, U64.in_range, U64.modulus, U64.width.
    simpl. lia.
  - apply Hp; unfold U64.in_range, U64.modulus, U64.width; lia.
Defined.

(** C8.  For in-range [K] and [F], the identities [{K, F}] and
    [{K, F + 2^63}] (the sum taken at 64 bits) are distinct, compare unequal
    and have the same hash. *)
Theorem hash_top_bit_collision (K F : Z) :
  U64.in_range K -> U64.in_range F ->
  Identity.wf (mkRpcId K F)
  /\ Identity.wf (mkRpcId K (U64.add F (2 ^ 63)))
  /\ mkRpcId K F <> mkRpcId K (U64.add F (2 ^ 63))
  /\ Identity.eqb (mkRpcId K F) (mkRpcId K (U64.add F (2 ^ 63))) = false
  /\ Identity.hash (mkRpcId K F)
     = Identity.hash (mkRpcId K (U64.add F (2 ^ 63))).
Proof.
  intros HK HF.
  assert (Hne : mkRpcId K F <> mkRpcId K (U64.add F (2 ^ 63))).
  { intros [= H]. by apply (add_top_ne F). }
  split_and!; try assumption.
  - split; assumption.
  - split; [assumption|apply wrap_in_range].
  - by apply eqb_neq.
  - unfold Identity.hash. simpl. by rewrite shl_1_add_top.
Qed.

Lemma hash_top_bit_collision_witness :
  Identity.hash (mkRpcId 7 1) = Identity.hash (mkRpcId 7 (2 ^ 63 + 1)).
Proof.
  assert (H7 : U64.in_range 7) by (unfold U64.in_range, U64.modulus, U64.width; lia).
  assert (H1 : U64.in_range 1) by (unfold U64.in_range, U64.modulus, U64.width; lia).
  exact (proj2 (proj2 (proj2 (proj2 (hash_top_bit_collision 7 1 H7 H1))))).
Defined.

End Identity_facts.

(** ** Packet envelope *)

Section Envelope_facts.

(** C9.  Wrapping a payload keeps the payload, hence each of its fields, and
    adds [ConnectionId = 0]; the result is the envelope of connection 0. *)
Theorem PacketEvent_wrap_frame (T : Type) (payload : T) :
  base (Envelope.wrap payload) = payload
  /\ (forall (A : Type) (field : T -> A),
        field (base (Envelope.wrap payload)) = field payload)
  /\ ConnectionId (Envelope.wrap payload) = 0
  /\ Envelope.wrap payload = mkPacketEvent payload 0
  /\ Envelope.wrap payload
     = Envelope.set_ConnectionId (Envelope.wrap payload) 0
  /\ (forall c, base (Envelope.set_ConnectionId (Envelope.wrap payload) c)
                = payload)
  /\ (forall e : PacketEvent T,
        base e = payload -> ConnectionId e = 0 -> e = Envelope.wrap payload).
Proof.
  split_and!; try reflexivity.
  intros [t c]. simpl. by intros -> ->.
Qed.

Lemma PacketEvent_wrap_frame_witness :
  mkPacketEvent (mkRpcId 1 2) 0 = Envelope.wrap (mkRpcId 1 2).
Proof.
  apply (PacketEvent_wrap_frame RpcId (mkRpcId 1 2)); reflexivity.
Defined.

End Envelope_facts.

(** ** Outbound translation table *)

Section TranslationTable_facts.

Import TranslationTable (store_all).

Implicit Types (m : gmap RpcId Z) (entries : list (RpcId * Z)) (id : RpcId).

Lemma replace_all_store previous entries :
  TranslationTable.replace_all previous entries
  = TranslationTable.store_all ∅ entries.
Proof. reflexivity. Qed.

Lemma store_all_notin m entries id :
  id ∉ entries.*1 -> store_all m entries !! id = m !! id.
Proof.
  revert m. induction entries as [|[i w] rest IH]; intros m Hid; [done|].
  simpl in *. apply not_elem_of_cons in Hid as [Hne Hid].
  unfold store_all in *. simpl. rewrite IH by done.
  by apply lookup_insert_ne.
Qed.

Lemma store_all_in m entries id :
  id ∈ entries.*1 ->
  exists w, (id, w) ∈ entries /\ store_all m entries !! id = Some w.
Proof.
  revert m. induction entries as [|[i w] rest IH]; intros m Hid; simpl in *.
  { by apply elem_of_nil in Hid. }
  destruct (decide (id ∈ rest.*1)) as [Hin|Hout].
  - destruct (IH (<[i := w]> m) Hin) as (w' & Hw' & Hl).
    exists w'. split; [by apply elem_of_cons; right|exact Hl].
  - apply elem_of_cons in Hid as [->|Hid]; [|done].
    exists w. split; [by apply elem_of_cons; left|].
    unfold store_all. simpl. fold (store_all (<[i := w]> m) rest).
    rewrite store_all_notin by done. apply lookup_insert_eq.
Qed.

Lemma NoDup_fst_functional entries id w1 w2 :
  NoDup entries.*1 -> (id, w1) ∈ entries -> (id, w2) ∈ entries -> w1 = w2.
Proof.
  induction entries as [|[i w] rest IH]; simpl.
  { intros _ H. by apply elem_of_nil in H. }
  intros [Hi Hnd]%list.NoDup_cons H1 H2.
  apply elem_of_cons in H1 as [H1|H1], H2 as [H2|H2].
  - congruence.
  - injection H1 as -> ->. exfalso. apply Hi.
    by apply (list_elem_of_fmap_2 fst) in H2.
  - injection H2 as -> ->. exfalso. apply Hi.
    by apply (list_elem_of_fmap_2 fst) in H1.
  - by apply IH.
Qed.

Lemma replace_all_None previous entries id :
  id ∉ entries.*1 ->
  TranslationTable.lookup (TranslationTable.replace_all previous entries) id
  = None.
Proof.
  intros H. unfold TranslationTable.lookup. rewrite replace_all_store.
  by rewrite store_all_notin.
Qed.

Lemma replace_all_Some_elem previous entries id w :
  TranslationTable.lookup (TranslationTable.replace_all previous entries) id
  = Some w ->
  (id, w) ∈ entries.
Proof.
  intros H. destruct (decide (id ∈ entries.*1)) as [Hin|Hout].
  - destruct (store_all_in ∅ entries id Hin) as (w' & Hw' & Hl).
    unfold TranslationTable.lookup in H. rewrite replace_all_store in H.
    congruence.
  - rewrite replace_all_None in H by done. discriminate.
Qed.

(** Reverse translation finds nothing for a wire id the table does not hold. *)
Lemma identity_of_None m wire :
  (forall id, m !! id <> Some wire) ->
  TranslationTable.identity_of m wire = None.
Proof.
  intros H. unfold TranslationTable.identity_of.
  destruct (filter _ _) as [|[i w] l] eqn:E; [done|].
  assert (Hin : (i, w) ∈ filter (fun e : RpcId * Z => e.2 = wire)
                                (map_to_list m)).
  { rewrite E. by apply elem_of_cons; left. }
  apply list_elem_of_filter in Hin as [Hw Hin]. simpl in Hw. subst w.
  apply elem_of_map_to_list in Hin. by apply H in Hin.
Qed.

Lemma identity_of_Some m wire id :
  TranslationTable.identity_of m wire = Some id -> m !! id = Some wire.
Proof.
  unfold TranslationTable.identity_of.
  destruct (filter _ _) as [|[i w] l] eqn:E; [done|].
  simpl. intros [= ->].
  assert (Hin : (id, w) ∈ filter (fun e : RpcId * Z => e.2 = wire)
                                 (map_to_list m)).
  { rewrite E. by apply elem_of_cons; left. }
  apply list_elem_of_filter in Hin as [Hw Hin]. simpl in Hw. subst w.
  by apply elem_of_map_to_list in Hin.
Qed.

End TranslationTable_facts.

(** ** Inbound handler registry *)

Section Registry_facts.

Implicit Types (regs static : list CachedRpcHandler) (id : RpcId) (h : Z).

Lemma resolve_None regs id :
  Registry.resolve regs id = None <-> id ∉ Id <$> regs.
Proof.
  induction regs as [|e rest IH]; simpl.
  - split; [intros _; apply not_elem_of_nil|done].
  - rewrite not_elem_of_cons. destruct (Identity.eqb (Id e) id) eqn:E.
    + apply eqb_eq in E. split; [done|]. intros [Hne _]. congruence.
    + apply eqb_neq in E. rewrite IH. split; [|tauto].
      intros H. split; [congruence|done].
Qed.

Lemma resolve_Some_elem regs id h :
  Registry.resolve regs id = Some h -> mkCachedRpcHandler id h ∈ regs.
Proof.
  induction regs as [|[i h'] rest IH]; simpl; [done|].
  destruct (Identity.eqb i id) eqn:E.
  - apply eqb_eq in E. intros [= ->]. subst i. by apply elem_of_cons; left.
  - intros H. apply elem_of_cons; right. by apply IH.
Qed.

Lemma resolve_elem regs id h :
  NoDup (Id <$> regs) ->
  mkCachedRpcHandler id h ∈ regs -> Registry.resolve regs id = Some h.
Proof.
  induction regs as [|[i h'] rest IH]; simpl.
  { intros _ H. by apply elem_of_nil in H. }
  intros [Hi Hnd]%list.NoDup_cons [H|H]%elem_of_cons.
  - injection H as <- <-. by rewrite eqb_refl.
  - destruct (Identity.eqb i id) eqn:E; [|by apply IH].
    apply eqb_eq in E. subst i. exfalso. apply Hi.
    by apply (list_elem_of_fmap_2 Id) in H.
Qed.

Lemma resolve_Some_iff regs id h :
  NoDup (Id <$> regs) ->
  Registry.resolve regs id = Some h <-> mkCachedRpcHandler id h ∈ regs.
Proof.
  intros Hnd. split; [apply resolve_Some_elem|by apply resolve_elem].
Qed.

(** Under distinct identities, [resolve] only depends on the set of entries. *)
Lemma resolve_Permutation regs1 regs2 id :
  NoDup (Id <$> regs1) -> regs1 ≡ₚ regs2 ->
  Registry.resolve regs1 id = Registry.resolve regs2 id.
Proof.
  intros Hnd1 Hp.
  assert (Hnd2 : NoDup (Id <$> regs2)) by (by rewrite <- Hp).
  destruct (Registry.resolve regs1 id) as [h1|] eqn:E1.
  - symmetry. apply resolve_Some_iff in E1; [|done].
    apply resolve_Some_iff; [done|]. by rewrite <- Hp.
  - destruct (Registry.resolve regs2 id) as [h2|] eqn:E2; [|done].
    apply resolve_Some_iff in E2; [|done]. rewrite <- Hp in E2.
    apply resolve_Some_iff in E2; [|done]. congruence.
Qed.

(** When the population succeeds and what it yields. *)
Lemma populate_Some_iff regs static r :
  Registry.populate regs static = Some r <->
  r = regs ++ static /\ NoDup (Id <$> static)
  /\ (forall id, id ∈ Id <$> static -> id ∉ Id <$> regs).
Proof.
  revert regs. induction static as [|e rest IH]; intros regs; simpl.
  - rewrite app_nil_r. split.
    + intros [= ->]. split_and!; [done|constructor|].
      intros id H. by apply elem_of_nil in H.
    + by intros (-> & _).
  - unfold Registry.register.
    destruct (Registry.resolve regs (Id e)) as [h|] eqn:E.
    + split; [done|]. intros (_ & _ & Hd). exfalso.
      assert (Hin : Id e ∈ Id <$> regs).
      { apply resolve_Some_elem in E. by apply (list_elem_of_fmap_2 Id) in E. }
      apply (Hd (Id e)); [by apply elem_of_cons; left|done].
    + apply resolve_None in E. rewrite IH.
      assert (He : {| Id := Id e; Handler := Handler e |} = e) by by destruct e.
      rewrite He, <- app_assoc. simpl. rewrite list.NoDup_cons. rewrite fmap_app.
      simpl. split.
      * intros (-> & Hnd & Hd). split_and!; try done.
        -- intros Hin. apply (Hd _ Hin). apply elem_of_app; right.
           by apply elem_of_cons; left.
        -- intros id [->|Hin]%elem_of_cons; [done|].
           specialize (Hd _ Hin). by apply not_elem_of_app in Hd as [? _].
      * intros (-> & [Hi Hnd] & Hd). split_and!; try done.
        intros id Hin. apply not_elem_of_app. split.
        -- apply Hd. by apply elem_of_cons; right.
        -- intros ->%list_elem_of_singleton. done.
Qed.

Lemma bring_up_Some_iff static r :
  Registry.bring_up static = Some r <-> r = static /\ NoDup (Id <$> static).
Proof.
  unfold Registry.bring_up. rewrite populate_Some_iff. simpl. split.
  - by intros (-> & ? & _).
  - intros (-> & ?). split_and!; try done. intros id _. apply not_elem_of_nil.
Qed.

Lemma bring_up_duplicate static (i j : nat) e1 e2 :
  i <> j -> static !! i = Some e1 -> static !! j = Some e2 -> Id e1 = Id e2 ->
  Registry.bring_up static = None.
Proof.
  intros Hij H1 H2 Heq.
  destruct (Registry.bring_up static) as [r|] eqn:E; [|done].
  apply bring_up_Some_iff in E as [_ Hnd]. exfalso. apply Hij.
  apply (NoDup_lookup (Id <$> static) i j (Id e1)); [done| |].
  - by rewrite list_lookup_fmap, H1.
  - by rewrite list_lookup_fmap, H2, Heq.
Qed.

End Registry_facts.

(** ** Dispatcher *)

Section Dispatcher_facts.

Import Dispatcher.

Implicit Types (s : Session) (ev : Event) (evs : list Event).

Lemma step_table_empty_before_Ready s ev :
  table_empty_before_Ready s -> table_empty_before_Ready (step s ev).1.
Proof.
  unfold table_empty_before_Ready. intros Hs.
  destruct ev as [static|msg|msg|id args]; simpl; [| | |done].
  - unfold PrepareRpc. destruct (phase s) eqn:Ep;
      [destruct (Registry.bring_up static)| |];
      simpl; rewrite ?Ep; intros Hp; first [done|by apply Hs].
  - unfold HandleRpcDefinitions. destruct (phase s) eqn:Ep;
      [|case_decide..];
      simpl; rewrite ?Ep; intros Hp; first [done|by apply Hs].
  - unfold HandleRpc. destruct (phase s) eqn:Ep;
      [|destruct (route _ _)..];
      simpl; rewrite ?Ep; intros Hp; first [done|by apply Hs].
Qed.

Lemma run_table_empty_before_Ready s evs :
  table_empty_before_Ready s -> table_empty_before_Ready (run s evs).1.
Proof.
  revert s. induction evs as [|ev rest IH]; intros s Hs; simpl; [done|].
  pose proof (step_table_empty_before_Ready s ev Hs) as H1.
  destruct (step s ev) as [s1 out1]. simpl in H1.
  specialize (IH s1 H1). by destruct (run s1 rest) as [s2 out2].
Qed.

Lemma initial_table_empty_before_Ready conn :
  table_empty_before_Ready (initial conn).
Proof. by intros _. Qed.

(** Once populated, the handler registry is never written again. *)
Lemma step_registry_frozen s ev :
  phase s <> Uninitialized ->
  phase (step s ev).1 <> Uninitialized
  /\ m_clientRpcs (service (step s ev).1) = m_clientRpcs (service s).
Proof.
  intros Hp. destruct ev as [static|msg|msg|id args]; simpl; [| | |done].
  - unfold PrepareRpc. destruct (phase s) eqn:Ep; simpl; by rewrite ?Ep.
  - unfold HandleRpcDefinitions. destruct (phase s) eqn:Ep;
      [done|case_decide..]; simpl; by rewrite ?Ep.
  - unfold HandleRpc. destruct (phase s) eqn:Ep;
      [done|destruct (route _ _)..]; simpl; by rewrite ?Ep.
Qed.

Lemma run_registry_frozen s evs :
  phase s <> Uninitialized ->
  m_clientRpcs (service (run s evs).1) = m_clientRpcs (service s).
Proof.
  revert s. induction evs as [|ev rest IH]; intros s Hp; simpl; [done|].
  destruct (step_registry_frozen s ev Hp) as [Hp1 Hr1].
  destruct (step s ev) as [s1 out1]. simpl in *.
  specialize (IH s1 Hp1). destruct (run s1 rest) as [s2 out2]. simpl in *.
  congruence.
Qed.

Lemma HandleRpc_unresolved s (aMessage : PacketEvent RpcCall) :
  route (service s) (target (base aMessage)) = None ->
  HandleRpc s aMessage = (s, [LoggedDrop]).
Proof. unfold HandleRpc. by intros ->. Qed.

End Dispatcher_facts.

(** ** The translation table across a Definitions message *)

Section Translation_claims.

Import Dispatcher.

(** C1.  After [replace_all], [lookup] is absent for every identity outside
    the entries, whatever the table held before, and returns a wire id paired
    with the identity in the entries otherwise; with the identities of the
    entries distinct it is exactly the paired wire id.  The result does not
    depend on the previous table, so a second [replace_all] supersedes the
    first, and an accepted Definitions message leaves [GetRpcId] reading that
    rebuilt table. *)
Theorem replace_all_lookup (previous : gmap RpcId Z)
  (entries : list (RpcId * Z)) (id : RpcId) :
  (id ∉ entries.*1 ->
   TranslationTable.lookup (TranslationTable.replace_all previous entries) id
   = None)
  /\ (id ∈ entries.*1 ->
      exists w, (id, w) ∈ entries
        /\ TranslationTable.lookup
             (TranslationTable.replace_all previous entries) id = Some w)
  /\ (forall w,
        TranslationTable.lookup
          (TranslationTable.replace_all previous entries) id = Some w ->
        (id, w) ∈ entries)
  /\ (NoDup entries.*1 ->
      forall w,
        (id, w) ∈ entries <->
        TranslationTable.lookup
          (TranslationTable.replace_all previous entries) id = Some w)
  /\ (forall first : list (RpcId * Z),
        TranslationTable.replace_all
          (TranslationTable.replace_all previous first) entries
        = TranslationTable.replace_all previous entries
        /\ (id ∉ entries.*1 ->
            TranslationTable.lookup
              (TranslationTable.replace_all
                 (TranslationTable.replace_all previous first) entries) id
            = None))
  /\ (forall (s : Session) (aMessage : PacketEvent RpcDefinitions),
        connection s = Some (ConnectionId aMessage) ->
        Dispatcher.entries (base aMessage) = entries ->
        GetRpcId (service (HandleRpcDefinitions s aMessage))
                 (Klass id) (Function id)
        = TranslationTable.lookup
            (TranslationTable.replace_all (m_serverRpcs (service s)) entries)
            id).
Proof.
  split_and!.
  - apply replace_all_None.
  - intros Hin. apply (store_all_in ∅ entries id Hin).
  - apply replace_all_Some_elem.
  - intros Hnd w. split; [|apply replace_all_Some_elem].
    intros Hw.
    assert (Hin : id ∈ entries.*1) by by apply (list_elem_of_fmap_2 fst) in Hw.
    destruct (store_all_in ∅ entries id Hin) as (w' & Hw' & Hl).
    rewrite (NoDup_fst_functional entries id w w'); done.
  - intros first. split; [reflexivity|apply replace_all_None].
  - intros s aMessage Hc He. unfold HandleRpcDefinitions.
    rewrite decide_True by done. unfold GetRpcId. simpl.
    rewrite He. by destruct id.
Qed.

Lemma replace_all_lookup_witness :
  TranslationTable.lookup
    (TranslationTable.replace_all
       (TranslationTable.replace_all ∅ [(mkRpcId 1 2, 7); (mkRpcId 3 4, 9)])
       [(mkRpcId 1 2, 42)])
    (mkRpcId 3 4) = None
  /\ TranslationTable.lookup
       (TranslationTable.replace_all
          (TranslationTable.replace_all ∅ [(mkRpcId 1 2, 7); (mkRpcId 3 4, 9)])
          [(mkRpcId 1 2, 42)])
       (mkRpcId 1 2) = Some 42.
Proof.
  split.
  - destruct (replace_all_lookup
                (TranslationTable.replace_all ∅
                   [(mkRpcId 1 2, 7); (mkRpcId 3 4, 9)])
                [(mkRpcId 1 2, 42)] (mkRpcId 3 4)) as (Habsent & _).
    apply Habsent. apply (bool_decide_unpack _). vm_compute. exact I.
  - destruct (replace_all_lookup
                (TranslationTable.replace_all ∅
                   [(mkRpcId 1 2, 7); (mkRpcId 3 4, 9)])
                [(mkRpcId 1 2, 42)] (mkRpcId 1 2))
      as (_ & _ & _ & Hexact & _).
    apply Hexact.
    + apply (bool_decide_unpack _). vm_compute. exact I.
    + apply (bool_decide_unpack _). vm_compute. exact I.
Defined.

(** The scenario of the specification: two Definitions messages in a row. *)
Example definitions_scenario :
  let first := TranslationTable.replace_all ∅
                 [(mkRpcId 1 2, 7); (mkRpcId 3 4, 9)] in
  let second := TranslationTable.replace_all first [(mkRpcId 1 2, 42)] in
  TranslationTable.lookup first (mkRpcId 1 2) = Some 7
  /\ TranslationTable.lookup first (mkRpcId 5 6) = None
  /\ TranslationTable.lookup second (mkRpcId 1 2) = Some 42
  /\ TranslationTable.lookup second (mkRpcId 3 4) = None.
Proof. vm_compute. done. Qed.

(** C7.  In every state a session can reach, [GetRpcId] of an identity the
    table does not map is the empty optional, and the outbound call is then
    not sent.  Before [Ready] every identity is in that case, so a call
    attempted then is rejected exactly like an unresolved one.  [GetRpcId]
    always returns: it is either empty or a wire id. *)
Theorem unresolved_lookup_is_absent (conn : option Z) (evs : list Event)
  (aKlass aFunction : Z) (args : list Byte.byte) :
  (m_serverRpcs (service (run (initial conn) evs).1)
     !! mkRpcId aKlass aFunction = None ->
   GetRpcId (service (run (initial conn) evs).1) aKlass aFunction = None
   /\ IssueCall (service (run (initial conn) evs).1)
        (mkRpcId aKlass aFunction) args = None
   /\ step (run (initial conn) evs).1
        (OutboundCall (mkRpcId aKlass aFunction) args)
      = ((run (initial conn) evs).1, []))
  /\ (phase (run (initial conn) evs).1 <> Ready ->
      GetRpcId (service (run (initial conn) evs).1) aKlass aFunction = None
      /\ IssueCall (service (run (initial conn) evs).1)
           (mkRpcId aKlass aFunction) args = None
      /\ step (run (initial conn) evs).1
           (OutboundCall (mkRpcId aKlass aFunction) args)
         = ((run (initial conn) evs).1, []))
  /\ (GetRpcId (service (run (initial conn) evs).1) aKlass aFunction = None
      \/ exists wire,
           GetRpcId (service (run (initial conn) evs).1) aKlass aFunction
           = Some wire).
Proof.
  set (s := (run (initial conn) evs).1).
  assert (Hun : m_serverRpcs (service s) !! mkRpcId aKlass aFunction = None ->
                GetRpcId (service s) aKlass aFunction = None
                /\ IssueCall (service s) (mkRpcId aKlass aFunction) args = None
                /\ step s (OutboundCall (mkRpcId aKlass aFunction) args)
                   = (s, [])).
  { intros H.
    assert (Hg : GetRpcId (service s) aKlass aFunction = None) by exact H.
    unfold step, IssueCall. simpl. by rewrite Hg. }
  split_and!.
  - exact Hun.
  - intros Hp. apply Hun.
    pose proof (run_table_empty_before_Ready (initial conn) evs
                  (initial_table_empty_before_Ready conn)) as Hinv.
    fold s in Hinv. rewrite (Hinv Hp). apply lookup_empty.
  - destruct (GetRpcId (service s) aKlass aFunction) as [w|]; eauto.
Qed.

Lemma unresolved_lookup_is_absent_witness :
  GetRpcId (service (run (initial (Some 1)) [Prepare []]).1) 1 2 = None
  /\ IssueCall
       (service
          (run (initial (Some 1))
             [Prepare [];
              Definitions
                (mkPacketEvent (mkRpcDefinitions [(mkRpcId 1 2, 7)]) 1)]).1)
       (mkRpcId 5 6) [] = None.
Proof.
  split.
  - destruct (unresolved_lookup_is_absent (Some 1) [Prepare []] 1 2 [])
      as (_ & Hbefore & _).
    apply Hbefore. vm_compute. discriminate.
  - destruct (unresolved_lookup_is_absent (Some 1)
                [Prepare [];
                 Definitions
                   (mkPacketEvent (mkRpcDefinitions [(mkRpcId 1 2, 7)]) 1)]
                5 6 [])
      as (Hunmapped & _).
    apply Hunmapped. vm_compute. reflexivity.
Defined.

End Translation_claims.

(** ** The handler registry and inbound calls *)

Section Registry_claims.

Import Dispatcher.

(** C5.  A static registration list holding two entries of equal identity
    makes the bring-up fail, and no longer list repairs it; the hook then
    logs the failure and leaves the session uninitialized with an empty
    registry, keeping neither handler. *)
Theorem duplicate_registration_fails (static : list CachedRpcHandler)
  (i j : nat) (e1 e2 : CachedRpcHandler) :
  i <> j -> static !! i = Some e1 -> static !! j = Some e2 ->
  Id e1 = Id e2 ->
  Registry.bring_up static = None
  /\ (forall more, Registry.bring_up (static ++ more) = None)
  /\ (forall conn,
        PrepareRpc (initial conn) static
        = (initial conn, [LoggedHookFailure])).
Proof.
  intros Hij H1 H2 Heq.
  assert (Hfail : Registry.bring_up static = None)
    by exact (bring_up_duplicate static i j e1 e2 Hij H1 H2 Heq).
  split_and!.
  - exact Hfail.
  - intros more. apply (bring_up_duplicate _ i j e1 e2); try done.
    + by apply lookup_app_l_Some.
    + by apply lookup_app_l_Some.
  - intros conn. unfold PrepareRpc. simpl. by rewrite Hfail.
Qed.

Lemma duplicate_registration_fails_witness :
  Registry.bring_up
    [mkCachedRpcHandler (mkRpcId 1 2) 100; mkCachedRpcHandler (mkRpcId 3 4) 200;
     mkCachedRpcHandler (mkRpcId 1 2) 300] = None.
Proof.
  apply (duplicate_registration_fails
           [mkCachedRpcHandler (mkRpcId 1 2) 100;
            mkCachedRpcHandler (mkRpcId 3 4) 200;
            mkCachedRpcHandler (mkRpcId 1 2) 300]
           0%nat 2%nat
           (mkCachedRpcHandler (mkRpcId 1 2) 100)
           (mkCachedRpcHandler (mkRpcId 1 2) 300));
    [lia|reflexivity|reflexivity|reflexivity].
Defined.

(** C6.  Static registrations with distinct identities populate the registry
    in whatever order they come, and [resolve] gives the same answer for the
    two orders; it gives the same answer for equal identities; and no event
    after bring-up changes what it returns. *)
Theorem resolve_stable_and_order_independent
  (static1 static2 : list CachedRpcHandler) (id : RpcId) :
  NoDup (Id <$> static1) -> static1 ≡ₚ static2 ->
  exists regs1 regs2,
    Registry.bring_up static1 = Some regs1
    /\ Registry.bring_up static2 = Some regs2
    /\ Registry.resolve regs1 id = Registry.resolve regs2 id
    /\ (forall id', Identity.eqb id id' = true ->
                    Registry.resolve regs1 id' = Registry.resolve regs1 id)
    /\ (forall (s : Session) (evs : list Event),
          phase s <> Uninitialized -> m_clientRpcs (service s) = regs1 ->
          Registry.resolve (m_clientRpcs (service (run s evs).1)) id
          = Registry.resolve regs1 id).
Proof.
  intros Hnd Hp. exists static1, static2.
  assert (Hnd2 : NoDup (Id <$> static2)) by (by rewrite <- Hp).
  split_and!.
  - by apply bring_up_Some_iff.
  - by apply bring_up_Some_iff.
  - by apply resolve_Permutation.
  - intros id' He. apply eqb_eq in He. by subst id'.
  - intros s evs Hph Hr. by rewrite run_registry_frozen, Hr.
Qed.

Lemma resolve_stable_and_order_independent_witness :
  exists regs1 regs2,
    Registry.bring_up
      [mkCachedRpcHandler (mkRpcId 1 2) 100;
       mkCachedRpcHandler (mkRpcId 3 4) 200] = Some regs1
    /\ Registry.bring_up
         [mkCachedRpcHandler (mkRpcId 3 4) 200;
          mkCachedRpcHandler (mkRpcId 1 2) 100] = Some regs2
    /\ Registry.resolve regs1 (mkRpcId 3 4)
       = Registry.resolve regs2 (mkRpcId 3 4).
Proof.
  destruct (resolve_stable_and_order_independent
              [mkCachedRpcHandler (mkRpcId 1 2) 100;
               mkCachedRpcHandler (mkRpcId 3 4) 200]
              [mkCachedRpcHandler (mkRpcId 3 4) 200;
               mkCachedRpcHandler (mkRpcId 1 2) 100]
              (mkRpcId 3 4))
    as (regs1 & regs2 & H1 & H2 & H3 & _).
  - apply (bool_decide_unpack _). vm_compute. exact I.
  - apply perm_swap.
  - exists regs1, regs2. by split_and!.
Defined.

(** C2.  An inbound call whose target does not resolve is dropped: the only
    action is the log entry, so no handler is invoked and no payload decoded,
    and the session, its connection included, is left as it was.  This covers
    an identity absent from the registry, a wire id absent from the
    translation table, and a wire id whose identity has no handler. *)
Theorem unresolved_call_dropped (s : Session)
  (aMessage : PacketEvent RpcCall) :
  (route (service s) (target (base aMessage)) = None ->
   HandleRpc s aMessage = (s, [LoggedDrop])
   /\ connection (HandleRpc s aMessage).1 = connection s
   /\ (forall h p, (Decoded h p ∉ (HandleRpc s aMessage).2)
                   /\ (Invoked h p ∉ (HandleRpc s aMessage).2))
   /\ (phase s <> Uninitialized ->
       step s (InboundCall aMessage) = (s, [LoggedDrop])))
  /\ (forall id,
        target (base aMessage) = ByIdentity id ->
        id ∉ Id <$> m_clientRpcs (service s) ->
        route (service s) (target (base aMessage)) = None)
  /\ (forall wire,
        target (base aMessage) = ByWireId wire ->
        (forall id, m_serverRpcs (service s) !! id <> Some wire) ->
        route (service s) (target (base aMessage)) = None)
  /\ (forall wire id,
        target (base aMessage) = ByWireId wire ->
        TranslationTable.identity_of (m_serverRpcs (service s)) wire
        = Some id ->
        id ∉ Id <$> m_clientRpcs (service s) ->
        route (service s) (target (base aMessage)) = None).
Proof.
  split_and!.
  - intros Hr. pose proof (HandleRpc_unresolved s aMessage Hr) as Hd.
    rewrite Hd. simpl. split_and!; try done.
    + intros h p.
      split; intros H; apply list_elem_of_singleton in H; discriminate H.
    + intros Hp. by destruct (phase s).
  - intros id -> Hid. simpl. by apply resolve_None.
  - intros wire -> Hw. simpl. by rewrite identity_of_None.
  - intros wire id -> Hi Hid. simpl. rewrite Hi. by apply resolve_None.
Qed.

Lemma unresolved_call_dropped_witness :
  HandleRpc
    {| service :=
         {| m_serverRpcs := ∅;
            m_clientRpcs := [mkCachedRpcHandler (mkRpcId 1 2) 100;
                             mkCachedRpcHandler (mkRpcId 3 4) 200] |};
       phase := Ready; connection := Some 1 |}
    (mkPacketEvent (mkRpcCall (ByIdentity (mkRpcId 9 9)) []) 1)
  = ({| service :=
          {| m_serverRpcs := ∅;
             m_clientRpcs := [mkCachedRpcHandler (mkRpcId 1 2) 100;
                              mkCachedRpcHandler (mkRpcId 3 4) 200] |};
        phase := Ready; connection := Some 1 |}, [LoggedDrop])
  /\ route
       {| m_serverRpcs := ∅;
          m_clientRpcs := [mkCachedRpcHandler (mkRpcId 1 2) 100] |}
       (ByWireId 7) = None.
Proof.
  split.
  - destruct (unresolved_call_dropped
                {| service :=
                     {| m_serverRpcs := ∅;
                        m_clientRpcs :=
                          [mkCachedRpcHandler (mkRpcId 1 2) 100;
                           mkCachedRpcHandler (mkRpcId 3 4) 200] |};
                   phase := Ready; connection := Some 1 |}
                (mkPacketEvent (mkRpcCall (ByIdentity (mkRpcId 9 9)) []) 1))
      as [Hdrop _].
    destruct (Hdrop eq_refl) as [Hd _]. exact Hd.
  - destruct (unresolved_call_dropped
                {| service :=
                     {| m_serverRpcs := ∅;
                        m_clientRpcs :=
                          [mkCachedRpcHandler (mkRpcId 1 2) 100] |};
                   phase := Ready; connection := Some 1 |}
                (mkPacketEvent (mkRpcCall (ByWireId 7) []) 1))
      as (_ & _ & Hwire & _).
    apply (Hwire 7 eq_refl). intros id. simpl. rewrite lookup_empty.
    discriminate.
Defined.

(** The scenario of the specification: a registry of two handlers. *)
Example registry_scenario :
  let s := {| service :=
                {| m_serverRpcs := ∅;
                   m_clientRpcs := [mkCachedRpcHandler (mkRpcId 1 2) 100;
                                    mkCachedRpcHandler (mkRpcId 3 4) 200] |};
              phase := Ready; connection := Some 1 |} in
  (HandleRpc s (mkPacketEvent (mkRpcCall (ByIdentity (mkRpcId 3 4)) []) 1)).2
  = [Decoded 200 []; Invoked 200 []]
  /\ (HandleRpc s (mkPacketEvent (mkRpcCall (ByIdentity (mkRpcId 9 9)) []) 1)).2
     = [LoggedDrop].
Proof. split; reflexivity. Qed.

End Registry_claims.

(** ** Master-server announcements *)

Section ServerList_claims.

Import ServerList.

Implicit Types (s : ServerListSystem) (evs : list Event).

Lemma Tick_announces s now1 now2 :
  m_nextAnnounce s < now1 ->
  Tick s now1 now2
  = {| m_nextAnnounce := now2 + minute;
       history := Announced now1 now2 :: history s |}.
Proof. intros H. unfold Tick. by rewrite (proj2 (Z.ltb_lt _ _) H). Qed.

Lemma Tick_idle s now1 now2 :
  now1 <= m_nextAnnounce s -> Tick s now1 now2 = s.
Proof. intros H. unfold Tick. by rewrite (proj2 (Z.ltb_ge _ _) H). Qed.

Lemma step_scheduled s ev : scheduled s -> scheduled (step s ev).
Proof.
  intros [Hsp Hnext]. destruct ev as [now1 now2| |]; simpl.
  - destruct (Z_lt_le_dec (m_nextAnnounce s) now1) as [Hlt|Hle].
    + rewrite Tick_announces by done. split; simpl; [|done].
      split; [|done]. destruct (history s) as [|[b a|] rest]; try done. lia.
    + by rewrite Tick_idle.
  - done.
  - done.
Qed.

Lemma run_scheduled s evs : scheduled s -> scheduled (run s evs).
Proof.
  revert s. induction evs as [|ev rest IH]; intros s Hs; [done|].
  simpl. apply IH. by apply step_scheduled.
Qed.

Lemma create_scheduled : scheduled create.
Proof. done. Qed.

(** C10.  [Tick] announces exactly when its first clock reading is past
    [m_nextAnnounce], and then sets [m_nextAnnounce] a minute past its second
    reading; a following [Tick] that announces again does so on a reading
    more than a minute later, and so do any two announcements of a run with
    no [PlayerComponent] event between them.  Setting or removing a
    [PlayerComponent] puts [m_nextAnnounce] back to the epoch, and the next
    [Tick] then announces on any reading past the epoch, as does the first
    [Tick] after construction. *)
Theorem announce_at_most_once_a_minute s evs (now1 now2 next1 next2 : Z) :
  (m_nextAnnounce s < now1 ->
   Tick s now1 now2
   = {| m_nextAnnounce := now2 + minute;
        history := Announced now1 now2 :: history s |})
  /\ (now1 <= m_nextAnnounce s -> Tick s now1 now2 = s)
  /\ (m_nextAnnounce s < now1 ->
      Tick (Tick s now1 now2) next1 next2 <> Tick s now1 now2 ->
      now2 + minute < next1)
  /\ spaced (history (run create evs))
  /\ m_nextAnnounce (step s EvSet) = 0
  /\ m_nextAnnounce (step s EvRemove) = 0
  /\ (0 < now1 ->
      Tick (step s EvSet) now1 now2
      = {| m_nextAnnounce := now2 + minute;
           history := Announced now1 now2 :: Cleared :: history s |}
      /\ Tick (step s EvRemove) now1 now2
         = {| m_nextAnnounce := now2 + minute;
              history := Announced now1 now2 :: Cleared :: history s |}
      /\ Tick create now1 now2
         = {| m_nextAnnounce := now2 + minute;
              history := [Announced now1 now2] |}).
Proof.
  split_and!; try done.
  - apply Tick_announces.
  - apply Tick_idle.
  - intros Hlt Hne. rewrite (Tick_announces s now1 now2 Hlt) in Hne.
    destruct (Z_lt_le_dec (now2 + minute) next1) as [|Hle]; [done|].
    exfalso. apply Hne. by apply Tick_idle.
  - apply (run_scheduled create evs create_scheduled).
  - intros Hpos. split_and!; by apply Tick_announces.
Qed.

Lemma announce_at_most_once_a_minute_witness :
  Tick create 5 6 = {| m_nextAnnounce := 6 + minute;
                       history := [Announced 5 6] |}
  /\ 6 + minute < 6 + minute + 1.
Proof.
  pose proof (announce_at_most_once_a_minute create [] 5 6
                (6 + minute + 1) (6 + minute + 2))
    as (Hann & _ & Hgap & _).
  split.
  - apply Hann. simpl. lia.
  - apply Hgap; [simpl; lia|vm_compute; discriminate].
Defined.

(** A run that announces, is reset by a joining player and announces again
    within the minute. *)
Example announcement_run :
  history (run create [EvTick 5 6; EvTick 7 8; EvSet; EvTick 9 10])
  = [Announced 9 10; Cleared; Announced 5 6].
Proof. reflexivity. Qed.

End ServerList_claims.

(** * Part III: further properties of the code *)

(** ** The hash, bit by bit *)

Section Hash_bits.

Lemma lxor_mod_pow2 a b n :
  0 <= n -> Z.lxor a b mod 2 ^ n = Z.lxor (a mod 2 ^ n) (b mod 2 ^ n).
Proof.
  intros Hn. apply Z.bits_inj'. intros i Hi.
  rewrite Z.lxor_spec, !Z.testbit_mod_pow2, Z.lxor_spec by lia.
  by destruct (i <? n).
Qed.

Lemma shl_xor a b n :
  U64.shl (U64.xor a b) n = U64.xor (U64.shl a n) (U64.shl b n).
Proof.
  unfold U64.shl, U64.xor, U64.wrap. rewrite Z.shiftl_lxor.
  by apply lxor_mod_pow2.
Qed.

Lemma shl_1_low a b :
  a mod 2 ^ 63 = b mod 2 ^ 63 -> U64.shl a 1 = U64.shl b 1.
Proof.
  intros H. rewrite !shl_1. change (2 ^ 64) with (2 * 2 ^ 63).
  rewrite !Z.mul_mod_distr_l by lia. by rewrite H.
Qed.

Lemma xor_move a b x y :
  U64.xor a x = U64.xor b y <-> b = U64.xor a (U64.xor x y).
Proof.
  unfold U64.xor. split.
  - intros H. rewrite <- Z.lxor_assoc, H, Z.lxor_assoc, Z.lxor_nilpotent.
    by rewrite Z.lxor_0_r.
  - intros ->. rewrite !Z.lxor_assoc, Z.lxor_nilpotent. by rewrite Z.lxor_0_r.
Qed.

(** X1.  Two identities have the same hash exactly when the [Klass] of one is
    the [Klass] of the other xor-ed with the shifted xor of the two
    [Function]s: every collision comes from moving a difference between
    [Function] and [Klass]. *)
Theorem hash_collision_iff (a b : RpcId) :
  Identity.hash a = Identity.hash b <->
  Klass b
  = U64.xor (Klass a) (U64.shl (U64.xor (Function a) (Function b)) 1).
Proof. unfold Identity.hash. rewrite shl_xor. apply xor_move. Qed.

Lemma hash_collision_iff_witness :
  Identity.hash (mkRpcId 4 2) = Identity.hash (mkRpcId 6 3).
Proof.
  apply (hash_collision_iff (mkRpcId 4 2) (mkRpcId 6 3)).
  vm_compute. reflexivity.
Defined.

(** X2.  Identities of the same [Klass] have the same hash exactly when
    their [Function]s agree on the low 63 bits: the top bit of [Function] is
    all the hash loses. *)
Theorem hash_same_Klass_collision_iff (a b : RpcId) :
  Klass a = Klass b ->
  Identity.hash a = Identity.hash b <->
  Function a mod 2 ^ 63 = Function b mod 2 ^ 63.
Proof.
  intros Hk. unfold Identity.hash. rewrite Hk. split.
  - intros H. apply xor_inj_l in H. by apply shl_1_inj_low.
  - intros H. by rewrite (shl_1_low _ _ H).
Qed.

Lemma hash_same_Klass_collision_iff_witness :
  Identity.hash (mkRpcId 7 (2 ^ 63 + 5)) = Identity.hash (mkRpcId 7 5).
Proof.
  apply (hash_same_Klass_collision_iff (mkRpcId 7 (2 ^ 63 + 5)) (mkRpcId 7 5)).
  - reflexivity.
  - vm_compute. reflexivity.
Defined.

(** X3.  Bit [i] of the hash is bit [i] of [Klass] xor bit [i-1] of
    [Function] below position 64, and bit [i] of [Klass] from there on; so
    the lowest bit of the hash is that of [Klass], whatever [Function] is. *)
Theorem hash_bits (s : RpcId) (i : Z) :
  0 <= i ->
  Z.testbit (Identity.hash s) i
  = xorb (Z.testbit (Klass s) i)
         ((i <? 64) && Z.testbit (Function s) (i - 1))
  /\ Identity.hash s mod 2 = Klass s mod 2.
Proof.
  intros Hi. unfold Identity.hash, U64.xor, U64.shl, U64.wrap.
  change U64.modulus with (2 ^ 64). split.
  - rewrite Z.lxor_spec, Z.testbit_mod_pow2 by lia.
    by rewrite Z.shiftl_spec by lia.
  - rewrite <- !Z.bit0_mod. f_equal.
    rewrite Z.lxor_spec, Z.testbit_mod_pow2 by lia.
    rewrite Z.shiftl_spec by lia. simpl. by rewrite xorb_false_r.
Qed.

Lemma hash_bits_witness :
  Z.testbit (Identity.hash (mkRpcId 5 3)) 1
  = xorb (Z.testbit 5 1) ((1 <? 64) && Z.testbit 3 (1 - 1))
  /\ Identity.hash (mkRpcId 5 3) mod 2 = 5 mod 2.
Proof. apply (hash_bits (mkRpcId 5 3) 1). lia. Defined.

End Hash_bits.

(** ** Announcements over a run of the server *)

Section ServerListRun_facts.

Import ServerList ServerListRun.

Implicit Types (s : ServerListSystem) (evs : list Event).

Lemma minute_pos : 0 < minute.
Proof. reflexivity. Qed.

Lemma last_reading_ge t evs : monotone t evs -> t <= last_reading t evs.
Proof.
  revert t. induction evs as [|[now1 now2| |] rest IH]; intros t; simpl.
  - lia.
  - intros (H1 & H2 & Hm). specialize (IH _ Hm). lia.
  - apply IH.
  - apply IH.
Qed.

Lemma step_budget lo t s now1 now2 :
  t <= now1 -> now1 <= now2 ->
  budget lo t s -> budget lo now2 (Tick s now1 now2).
Proof.
  intros H1 H2 Hb. pose proof minute_pos as Hm. unfold budget in *.
  destruct (Z_lt_le_dec (m_nextAnnounce s) now1) as [Hlt|Hle].
  - rewrite Tick_announces by done. simpl.
    destruct (history s) as [|[b a|] rest] eqn:Eh; simpl in *;
      (split; [done|split; [lia|]]); nia.
  - rewrite Tick_idle by done.
    destruct (history s) as [|[b a|] rest] eqn:Eh; simpl in *;
      (split; [tauto|]); try split; lia.
Qed.

Lemma observer_budget lo t s : budget lo t s -> budget lo t (OnPlayerComponent s).
Proof.
  intros Hb. pose proof minute_pos as Hm. unfold budget in *. simpl.
  split; [done|].
  destruct (history s) as [|[b a|] rest] eqn:Eh; simpl in *; lia.
Qed.

Lemma run_budget lo t s evs :
  budget lo t s -> monotone t evs ->
  budget lo (last_reading t evs) (run s evs).
Proof.
  revert t s. induction evs as [|[now1 now2| |] rest IH]; intros t s Hb; simpl.
  - done.
  - intros (H1 & H2 & Hmono). apply IH; [|done]. by apply (step_budget lo t).
  - intros Hmono. apply IH; [|done]. by apply observer_budget.
  - intros Hmono. apply IH; [|done]. by apply observer_budget.
Qed.

Lemma create_budget lo : budget lo lo create.
Proof. unfold budget. simpl. lia. Qed.

Lemma run_resets s evs :
  resets (history (run s evs)) = resets (history s) + player_events evs.
Proof.
  revert s. induction evs as [|[now1 now2| |] rest IH]; intros s; simpl.
  - lia.
  - fold (run (Tick s now1 now2) rest). rewrite IH. unfold Tick.
    destruct (m_nextAnnounce s <? now1); simpl; lia.
  - fold (run (OnPlayerComponent s) rest). rewrite IH. simpl. lia.
  - fold (run (OnPlayerComponent s) rest). rewrite IH. simpl. lia.
Qed.

Lemma run_announcements_le_ticks s evs :
  announcements (history (run s evs))
  <= announcements (history s) + ticks evs.
Proof.
  revert s. induction evs as [|[now1 now2| |] rest IH]; intros s; simpl.
  - lia.
  - fold (run (Tick s now1 now2) rest). specialize (IH (Tick s now1 now2)).
    unfold Tick in *. destruct (m_nextAnnounce s <? now1); simpl in *; lia.
  - fold (run (OnPlayerComponent s) rest).
    specialize (IH (OnPlayerComponent s)). simpl in IH. lia.
  - fold (run (OnPlayerComponent s) rest).
    specialize (IH (OnPlayerComponent s)). simpl in IH. lia.
Qed.

(** X4.  Over a run with a clock that never goes back, the announcements
    beyond the first and beyond one per [PlayerComponent] event each take a
    minute of the time the run lasts, and there is never more than one per
    [Tick]. *)
Theorem announcements_bounded (lo : Z) evs :
  monotone lo evs ->
  (announcements (history (run create evs)) - 1 - player_events evs) * minute
  <= last_reading lo evs - lo
  /\ announcements (history (run create evs)) <= ticks evs.
Proof.
  intros Hmono. split.
  - pose proof (run_budget lo lo create evs (create_budget lo) Hmono) as Hb.
    pose proof (run_resets create evs) as Hr. simpl in Hr.
    pose proof minute_pos as Hm. unfold budget in Hb.
    destruct (history (run create evs)) as [|[b a|] rest] eqn:Eh;
      simpl in *; nia.
  - pose proof (run_announcements_le_ticks create evs) as H. simpl in H. lia.
Qed.

Lemma announcements_bounded_witness :
  (announcements
     (history (run create [EvTick 5 6; EvTick 7 8; EvSet; EvTick 9 10]))
   - 1
   - player_events [EvTick 5 6; EvTick 7 8; EvSet; EvTick 9 10]) * minute
  <= last_reading 1 [EvTick 5 6; EvTick 7 8; EvSet; EvTick 9 10] - 1
  /\ announcements
       (history (run create [EvTick 5 6; EvTick 7 8; EvSet; EvTick 9 10]))
     <= ticks [EvTick 5 6; EvTick 7 8; EvSet; EvTick 9 10].
Proof.
  apply (announcements_bounded 1 [EvTick 5 6; EvTick 7 8; EvSet; EvTick 9 10]).
  simpl. lia.
Defined.

(** X5.  With clock readings in order and not before the epoch, the schedule
    is never more than a minute past the last reading; so a [Tick] whose
    reading is more than a minute past the last one always announces. *)
Theorem announcement_never_overdue (lo : Z) evs (now1 now2 : Z) :
  0 <= lo -> monotone lo evs ->
  m_nextAnnounce (run create evs) <= last_reading lo evs + minute
  /\ (last_reading lo evs + minute < now1 ->
      history (Tick (run create evs) now1 now2)
      = Announced now1 now2 :: history (run create evs)).
Proof.
  intros Hlo Hmono.
  pose proof (run_budget lo lo create evs (create_budget lo) Hmono) as Hb.
  pose proof (last_reading_ge lo evs Hmono) as Hge.
  pose proof minute_pos as Hm.
  assert (Hle : m_nextAnnounce (run create evs) <= last_reading lo evs + minute).
  { unfold budget in Hb.
    destruct (history (run create evs)) as [|[b a|] rest]; lia. }
  split; [exact Hle|].
  intros Hlate. rewrite Tick_announces by lia. reflexivity.
Qed.

Lemma announcement_never_overdue_witness :
  history (Tick (run create [EvTick 5 6; EvTick 7 8]) (8 + minute + 1)
             (8 + minute + 2))
  = Announced (8 + minute + 1) (8 + minute + 2)
      :: history (run create [EvTick 5 6; EvTick 7 8]).
Proof.
  apply (announcement_never_overdue 1 [EvTick 5 6; EvTick 7 8]
           (8 + minute + 1) (8 + minute + 2)).
  - lia.
  - simpl. lia.
  - simpl. lia.
Defined.

End ServerListRun_facts.

(** ** Posting an announcement *)

Section MasterServer_facts.

Import MasterServer.

Lemma bool_string_inj b1 b2 : bool_string b1 = bool_string b2 -> b1 = b2.
Proof. by destruct b1, b2. Qed.

Lemma to_string_inj x y : to_string x = to_string y -> x = y.
Proof. unfold to_string. apply (inj pretty). Qed.

Lemma health_log_not_Kill h : health_log h <> Kill.
Proof.
  destruct h as [status body|code]; simpl; [|done].
  by destruct (status =? 200).
Qed.

Lemma Kill_in_outcome response count :
  Kill ∈ announce_outcome response count <->
  exists body, response = Response 403 body.
Proof.
  destruct response as [status body|code]; simpl.
  - destruct (status =? 403) eqn:E403.
    + apply Z.eqb_eq in E403. subst status. split; [by exists body|].
      intros _. apply elem_of_cons; right. by apply elem_of_cons; left.
    + apply Z.eqb_neq in E403. split.
      * destruct (status =? 200);
          intros H%list_elem_of_singleton; discriminate H.
      * intros [body' [= -> _]]. done.
  - split.
    + intros [H|H%list_elem_of_singleton]%elem_of_cons; discriminate H.
    + intros [body [=]].
Qed.

(** X6.  [PostAnnouncement] kills the server exactly when the master server
    answers the announcement with status 403; neither the health check nor a
    failed connection ever does. *)
Theorem Kill_iff_banned (acName acDesc acIconUrl : string)
  (aPort aTick aPlayerCount aPlayerMaxCount : Z) (acTagList : string)
  (aPublic aPassword : bool) (aFlags : Z) (health_response response : Result) :
  Kill ∈ PostAnnouncement acName acDesc acIconUrl aPort aTick aPlayerCount
           aPlayerMaxCount acTagList aPublic aPassword aFlags
           health_response response
  <-> exists body, response = Response 403 body.
Proof.
  unfold PostAnnouncement. rewrite elem_of_app, Kill_in_outcome.
  split; [|by right]. intros [H|H]; [|done]. exfalso.
  repeat (apply elem_of_cons in H as [H|H]; [try discriminate H|]).
  - by apply (health_log_not_Kill health_response).
  - by apply elem_of_nil in H.
Qed.

Lemma Kill_iff_banned_witness :
  Kill ∈ PostAnnouncement "srv" "d" "i" 7777 60 3 10000 "t" true false 0
           (NoResponse 2) (Response 403 "banned").
Proof.
  apply (Kill_iff_banned "srv" "d" "i" 7777 60 3 10000 "t" true false 0
           (NoResponse 2) (Response 403 "banned")).
  exists "banned". reflexivity.
Defined.

(** X7.  Whatever the health check and the announcement return,
    [PostAnnouncement] issues the same two requests, the health check and
    then the announcement with the form built from its arguments: a failed
    health check does not hold the announcement back. *)
Theorem requests_always_sent (acName acDesc acIconUrl : string)
  (aPort aTick aPlayerCount aPlayerMaxCount : Z) (acTagList : string)
  (aPublic aPassword : bool) (aFlags : Z) (health_response response : Result) :
  List.filter is_request
    (PostAnnouncement acName acDesc acIconUrl aPort aTick aPlayerCount
       aPlayerMaxCount acTagList aPublic aPassword aFlags
       health_response response)
  = [Get "/health";
     Post "/announce"
       (announce_params acName acDesc acIconUrl aPort aTick aPlayerCount
          aPlayerMaxCount acTagList aPublic aPassword aFlags)].
Proof.
  unfold PostAnnouncement, health_log, announce_outcome.
  destruct health_response as [hs hb|hc], response as [status body|code];
    simpl;
    repeat match goal with
           | |- context [?x =? ?y] => destruct (x =? y)
           end; reflexivity.
Qed.

(** X8.  [PostAnnouncement] logs at level [error] exactly when the
    announcement was not answered with status 200; a failed health check
    alone only warns. *)
Theorem error_logged_iff_not_announced (acName acDesc acIconUrl : string)
  (aPort aTick aPlayerCount aPlayerMaxCount : Z) (acTagList : string)
  (aPublic aPassword : bool) (aFlags : Z) (health_response response : Result) :
  List.existsb is_error_log
    (PostAnnouncement acName acDesc acIconUrl aPort aTick aPlayerCount
       aPlayerMaxCount acTagList aPublic aPassword aFlags
       health_response response) = true
  <-> forall body, response <> Response 200 body.
Proof.
  unfold PostAnnouncement, health_log, announce_outcome.
  destruct health_response as [hs hb|hc], response as [status body|code];
    simpl;
    repeat match goal with
           | |- context [?x =? ?y] => destruct (x =? y) eqn:?
           end; simpl;
    repeat match goal with
           | H : (_ =? _) = true |- _ => apply Z.eqb_eq in H; subst
           | H : (_ =? _) = false |- _ => apply Z.eqb_neq in H
           end;
    split; try done; try (intros _ ? [=]; done);
    intros H; exfalso; by apply (H body).
Qed.

Lemma error_logged_iff_not_announced_witness :
  List.existsb is_error_log
    (PostAnnouncement "srv" "d" "i" 7777 60 3 10000 "t" true false 0
       (Response 200 "ok") (NoResponse 2)) = true.
Proof.
  apply (error_logged_iff_not_announced "srv" "d" "i" 7777 60 3 10000 "t"
           true false 0 (Response 200 "ok") (NoResponse 2)).
  intros body. discriminate.
Defined.

(** X9.  The form keeps all eleven arguments apart: two calls that build the
    same form were given the same strings, numbers and flags. *)
Theorem announce_params_inj
  (acName acDesc acIconUrl : string)
  (aPort aTick aPlayerCount aPlayerMaxCount : Z) (acTagList : string)
  (aPublic aPassword : bool) (aFlags : Z)
  (acName' acDesc' acIconUrl' : string)
  (aPort' aTick' aPlayerCount' aPlayerMaxCount' : Z) (acTagList' : string)
  (aPublic' aPassword' : bool) (aFlags' : Z) :
  announce_params acName acDesc acIconUrl aPort aTick aPlayerCount
    aPlayerMaxCount acTagList aPublic aPassword aFlags
  = announce_params acName' acDesc' acIconUrl' aPort' aTick' aPlayerCount'
      aPlayerMaxCount' acTagList' aPublic' aPassword' aFlags' ->
  acName = acName' /\ acDesc = acDesc' /\ acIconUrl = acIconUrl'
  /\ aPort = aPort' /\ aTick = aTick' /\ aPlayerCount = aPlayerCount'
  /\ aPlayerMaxCount = aPlayerMaxCount' /\ acTagList = acTagList'
  /\ aPublic = aPublic' /\ aPassword = aPassword' /\ aFlags = aFlags'.
Proof.
  unfold announce_params.
  intros [= Hn Hd Hi Hp Ht Hc Hm Hg Hpu Hpa Hf].
  split_and!; try done;
    first [by apply to_string_inj|by apply bool_string_inj].
Qed.

Lemma announce_params_inj_witness :
  "srv" = "srv" /\ "d" = "d" /\ "i" = "i"
  /\ 7777 = 7777 /\ 60 = 60 /\ 3 = 3 /\ 10000 = 10000 /\ "t" = "t"
  /\ true = true /\ false = false /\ 0 = 0.
Proof.
  apply (announce_params_inj "srv" "d" "i" 7777 60 3 10000 "t" true false 0
           "srv" "d" "i" 7777 60 3 10000 "t" true false 0).
  reflexivity.
Defined.

(** X10.  The announced player count is the count modulo [2^16]: two
    announcements of the same server differ exactly when the counts differ
    modulo 65536, so 65536 players are announced as none. *)
Theorem Announce_count_wraps (config : Config) (port tickRate : Z)
  (count1 count2 : Z) (health_response response : Result) :
  Announce config port tickRate count1 health_response response
  = Announce config port tickRate count2 health_response response
  <-> count1 mod 2 ^ 16 = count2 mod 2 ^ 16.
Proof.
  unfold Announce, PostAnnouncement, u16. split.
  - simpl. intros [= H _]. by apply to_string_inj in H.
  - by intros ->.
Qed.

Lemma Announce_count_wraps_witness :
  Announce (mkConfig "srv" "d" "i" "t") 7777 60 65536
    (Response 200 "ok") (Response 200 "ok")
  = Announce (mkConfig "srv" "d" "i" "t") 7777 60 0
      (Response 200 "ok") (Response 200 "ok").
Proof.
  apply (Announce_count_wraps (mkConfig "srv" "d" "i" "t") 7777 60 65536 0
           (Response 200 "ok") (Response 200 "ok")).
  reflexivity.
Defined.

End MasterServer_facts.
